(** * Verification of [app/src/ui/main-process-proxy.ts]

    The renderer-side IPC proxy of the desktop application: typed proxies
    over the transport ([invokeProxy], [sendProxy]), the contextual-menu
    round trip ([serializeMenuItems], [findSubmenuItem],
    [showContextualMenu]) and the error normaliser ([getIpcFriendlyError]).

    JavaScript values are embedded as follows.
    - [undefined] in an optional position is [None]; a property that is
      missing and a property that holds [undefined] are identified, as the
      code's own tests ([=== undefined], [||], [? :]) cannot tell them apart.
    - a [number] used as an array index is a [Z]; an index that is negative
      or not below the length reads [undefined].
    - reading a property of [undefined] raises a [TypeError]; this is kept
      explicit ([Completion]) so that "does not throw" is a statement about
      the code and not about the embedding. *)

From Stdlib Require Import List ZArith String Bool Lia Arith.
Import ListNotations.

Local Open Scope string_scope.
Local Open Scope list_scope.
Local Open Scope Z_scope.

(** ** JavaScript errors and completions *)

(** A JavaScript [Error] object as the code reads it: the three own
    properties, each possibly [undefined] at run time. *)
Record JsError : Type := mkJsError {
  error_message : option string;
  error_name : option string;
  error_stack : option string
}.

Definition TypeError (msg : string) : JsError :=
  mkJsError (Some msg) (Some "TypeError") None.

(** Result of evaluating synchronous code: a value or a thrown error. *)
Inductive Completion (A : Type) : Type :=
| Returned (a : A)
| Thrown (e : JsError).
Arguments Returned {A} a.
Arguments Thrown {A} e.

Definition bindC {A B} (c : Completion A) (k : A -> Completion B) : Completion B :=
  match c with
  | Returned a => k a
  | Thrown e => Thrown e
  end.

Declare Scope js_scope.
Delimit Scope js_scope with js.
Notation "x <- c ;; k" := (bindC c (fun x => k))
  (at level 61, c at next level, right associativity) : js_scope.

(** ** Menu items *)

(** A local action: a no-argument closure owned by the renderer.  Closures
    are opaque; one is named by a handle and its invocation is an event. *)
Inductive Callable : Type := Closure (handle : string).

(** Modelled from the spec: [IMenuItem] of [lib/menu-item], which is not
    among the sources.  A node has an identifier, an optional local action
    and an optional ordered sequence of children.  The identifier is
    optional because [findSubmenuItem] builds a root holding a submenu
    only.  [ISerializableMenuItem] is the same shape whose action is
    [undefined]. *)
#[local] Unset Elimination Schemes.
Inductive MenuItem : Type :=
| mkMenuItem (id : option string) (action : option Callable)
             (submenu : option (list MenuItem)).
#[local] Set Elimination Schemes.

Definition id (m : MenuItem) : option string :=
  match m with mkMenuItem i _ _ => i end.
Definition action (m : MenuItem) : option Callable :=
  match m with mkMenuItem _ a _ => a end.
Definition submenu (m : MenuItem) : option (list MenuItem) :=
  match m with mkMenuItem _ _ s => s end.

(** Induction over menu trees, with the children of a node as hypotheses. *)
Section MenuItem_induction.
Variable P : MenuItem -> Prop.
Hypothesis Hleaf : forall i a, P (mkMenuItem i a None).
Hypothesis Hnode : forall i a kids,
    Forall P kids -> P (mkMenuItem i a (Some kids)).

Fixpoint MenuItem_tree_ind (m : MenuItem) : P m :=
  match m with
  | mkMenuItem i a None => Hleaf i a
  | mkMenuItem i a (Some kids) =>
      Hnode i a kids
        ((fix all (l : list MenuItem) : Forall P l :=
            match l with
            | [] => Forall_nil P
            | k :: ks => Forall_cons k (MenuItem_tree_ind k) (all ks)
            end) kids)
  end.
End MenuItem_induction.

(** ** Property and element access *)

(** [o.submenu] where [o : IMenuItem | undefined]. *)
Definition get_submenu (o : option MenuItem) : Completion (option (list MenuItem)) :=
  match o with
  | Some m => Returned (submenu m)
  | None => Thrown (TypeError "Cannot read properties of undefined (reading 'submenu')")
  end.

(** [xs[index]] on an array. *)
Definition array_get {A} (xs : list A) (index : Z) : option A :=
  if index <? 0 then None else nth_error xs (Z.to_nat index).

(** [a[index]] where [a : ReadonlyArray<IMenuItem> | undefined]. *)
Definition get_index (a : option (list MenuItem)) (index : Z) : Completion (option MenuItem) :=
  match a with
  | Some xs => Returned (array_get xs index)
  | None => Thrown (TypeError "Cannot read properties of undefined")
  end.

Definition is_undefined {A} (o : option A) : bool :=
  match o with None => true | Some _ => false end.

(** ** findSubmenuItem *)

(** The guard of the loop body, with the short circuit of [||]:
    [foundMenuItem === undefined || foundMenuItem.submenu === undefined]. *)
Definition loop_guard (foundMenuItem : option MenuItem) : Completion bool :=
  if is_undefined foundMenuItem then Returned true
  else (s <- get_submenu foundMenuItem ;; Returned (is_undefined s))%js.

(** The [for (const index of indices)] loop, from the current value of
    [foundMenuItem]; the [return undefined] in the body leaves the
    function. *)
Fixpoint findSubmenuItem_loop (foundMenuItem : option MenuItem) (indices : list Z)
  : Completion (option MenuItem) :=
  match indices with
  | [] => Returned foundMenuItem
  | index :: rest =>
      (stop <- loop_guard foundMenuItem ;;
       if (stop : bool) then Returned None
       else
         s <- get_submenu foundMenuItem ;;
         next <- get_index s index ;;
         findSubmenuItem_loop next rest)%js
  end.

(** The initial value of [foundMenuItem]: [{ submenu: currentContextualMenuItems }]. *)
Definition synthetic_root (currentContextualMenuItems : list MenuItem) : MenuItem :=
  mkMenuItem None None (Some currentContextualMenuItems).

Definition findSubmenuItem (currentContextualMenuItems : list MenuItem)
           (indices : list Z) : Completion (option MenuItem) :=
  findSubmenuItem_loop (Some (synthetic_root currentContextualMenuItems)) indices.

(** ** serializeMenuItems *)

(** The arrow function given to [items.map]:
    [{ ...item, action: undefined,
       submenu: item.submenu ? serializeMenuItems(item.submenu) : undefined }].
    An array is truthy also when empty. *)
Fixpoint serializeMenuItem (item : MenuItem) : MenuItem :=
  match item with
  | mkMenuItem i _ s =>
      mkMenuItem i None
        (match s with
         | Some kids => Some (map serializeMenuItem kids)
         | None => None
         end)
  end.

Definition serializeMenuItems (items : list MenuItem) : list MenuItem :=
  map serializeMenuItem items.

(** ** Specification vocabulary for menu trees *)

(** [Reaches n path m]: following the indices of [path] positionally from
    node [n], each a valid child position at its level, ends at [m]. *)
Inductive Reaches : MenuItem -> list Z -> MenuItem -> Prop :=
| Reaches_here n : Reaches n [] n
| Reaches_child n kids index child rest m :
    submenu n = Some kids ->
    0 <= index < Z.of_nat (List.length kids) ->
    nth_error kids (Z.to_nat index) = Some child ->
    Reaches child rest m ->
    Reaches n (index :: rest) m.

(** [Misses n path]: from node [n] the path cannot be followed: some index
    is out of range at its level, or the path goes on below a node that has
    no submenu. *)
Inductive Misses : MenuItem -> list Z -> Prop :=
| Misses_no_submenu n index rest :
    submenu n = None ->
    Misses n (index :: rest)
| Misses_out_of_range n kids index rest :
    submenu n = Some kids ->
    index < 0 \/ Z.of_nat (List.length kids) <= index ->
    Misses n (index :: rest)
| Misses_below n kids index child rest :
    submenu n = Some kids ->
    0 <= index < Z.of_nat (List.length kids) ->
    nth_error kids (Z.to_nat index) = Some child ->
    Misses child rest ->
    Misses n (index :: rest).

#[local] Unset Elimination Schemes.

(** No callable anywhere in the tree. *)
Inductive ActionFree : MenuItem -> Prop :=
| ActionFree_leaf i : ActionFree (mkMenuItem i None None)
| ActionFree_node i kids :
    Forall ActionFree kids -> ActionFree (mkMenuItem i None (Some kids)).

(** Two trees agree on everything but actions: same identifier at every
    node, a submenu on one side exactly when on the other, children paired
    in order. *)
Inductive SameShape : MenuItem -> MenuItem -> Prop :=
| SameShape_leaf i a b : SameShape (mkMenuItem i a None) (mkMenuItem i b None)
| SameShape_node i a b kids kids' :
    Forall2 SameShape kids kids' ->
    SameShape (mkMenuItem i a (Some kids)) (mkMenuItem i b (Some kids')).

#[local] Set Elimination Schemes.

(** Nesting depth of a node and of a sequence of nodes. *)
Fixpoint depth (m : MenuItem) : nat :=
  match m with
  | mkMenuItem _ _ None => 0
  | mkMenuItem _ _ (Some kids) => S (fold_right (fun k d => Nat.max (depth k) d) 0%nat kids)
  end.

Definition depths (items : list MenuItem) : nat :=
  fold_right (fun k d => Nat.max (depth k) d) 0%nat items.

(** ** getIpcFriendlyError *)

(** [x || y] where [x : string | undefined] and [y : string]: an empty
    string and [undefined] are the falsy values of that type. *)
Definition or_string (x : option string) (y : string) : string :=
  match x with
  | Some s => if String.eqb s "" then y else s
  | None => y
  end.

(** [x || undefined] where [x : string | undefined]. *)
Definition or_undefined (x : option string) : option string :=
  match x with
  | Some s => if String.eqb s "" then None else Some s
  | None => None
  end.

Definition falsy (x : option string) : bool :=
  match x with
  | Some s => String.eqb s ""
  | None => true
  end.

(** The template literal [`${v}`] for [v : string | undefined]. *)
Definition template (v : option string) : string :=
  match v with
  | Some s => s
  | None => "undefined"
  end.

(** The template literal [`${error}`]: [Error.prototype.toString], which
    defaults a missing name to "Error" and a missing message to the empty
    string, and joins the two with a colon when neither is empty. *)
Definition Error_toString (error : JsError) : string :=
  let name := match error_name error with Some n => n | None => "Error" end in
  let msg := match error_message error with Some m => m | None => "" end in
  if String.eqb name "" then msg
  else if String.eqb msg "" then name
  else (name ++ ": " ++ msg)%string.

(** The record sent over the wire. *)
Record IpcFriendlyError : Type := mkIpcFriendlyError {
  message : string;
  name : string;
  stack : option string
}.

Definition getIpcFriendlyError (error : JsError) : IpcFriendlyError :=
  {| message := or_string (error_message error) (Error_toString error);
     name := or_string (error_name error) (template (error_name error));
     stack := or_undefined (error_stack error) |}.

(** ** Channels *)

(** Plain data that crosses the process boundary without a type of its own
    in this file (certificates, dialog options, label tables). *)
#[local] Unset Elimination Schemes.
Inductive Json : Type :=
| JNull
| JBool (b : bool)
| JNumber (n : Z)
| JString (s : string)
| JArray (elems : list Json)
| JObject (fields : list (string * Json)).
#[local] Set Elimination Schemes.

(** Modelled from the spec: the one-way channel table [RequestChannels] of
    [lib/ipc-shared], which is not among the sources; the channels are those
    this file builds a [sendProxy] for, their arguments as in the channel
    catalogue. *)
Inductive RequestChannels : Type :=
| select_all_window_contents
| update_menu_state
| renderer_ready
| execute_menu_item_by_id
| show_item_in_folder
| show_folder_contents
| show_certificate_trust_dialog
| move_to_applications_folder
| get_app_menu
| update_preferred_app_menu_item_labels
| uncaught_exception
| send_error_report.

Definition RequestParameters (channel : RequestChannels) : Type :=
  match channel with
  | select_all_window_contents => unit
  | update_menu_state => (string * bool)%type
  | renderer_ready => unit
  | execute_menu_item_by_id => string
  | show_item_in_folder => string
  | show_folder_contents => string
  | show_certificate_trust_dialog => (Json * string)%type
  | move_to_applications_folder => unit
  | get_app_menu => unit
  | update_preferred_app_menu_item_labels => Json
  | uncaught_exception => IpcFriendlyError
  | send_error_report => (IpcFriendlyError * list (string * string) * bool)%type
  end.

(** Modelled from the spec: the two-way channel table
    [RequestResponseChannels] of [lib/ipc-shared], for the channels this
    file builds an [invokeProxy] for. *)
Inductive RequestResponseChannels : Type :=
| is_window_focused
| open_external
| move_to_trash
| show_contextual_menu
| resolve_proxy
| show_open_dialog.

Definition RequestResponseParameters (channel : RequestResponseChannels) : Type :=
  match channel with
  | is_window_focused => unit
  | open_external => string
  | move_to_trash => string
  | show_contextual_menu => (list MenuItem * bool)%type
  | resolve_proxy => string
  | show_open_dialog => Json
  end.

(** What the promise of a two-way channel resolves to; [None] is [null]. *)
Definition RequestResponseValue (channel : RequestResponseChannels) : Type :=
  match channel with
  | is_window_focused => bool
  | open_external => bool
  | move_to_trash => bool
  | show_contextual_menu => option (list Z)
  | resolve_proxy => string
  | show_open_dialog => option string
  end.

(** ** The renderer's effects *)

(** A promise as its eventual state. *)
Inductive Promise (A : Type) : Type :=
| Fulfilled (value : A)
| Rejected (reason : JsError)
| Pending.
Arguments Fulfilled {A} value.
Arguments Rejected {A} reason.
Arguments Pending {A}.

(** What the renderer does to the outside: transport calls and calls of
    local actions, in order. *)
Inductive Event : Type :=
| IpcSend (channel : RequestChannels) (args : RequestParameters channel)
| IpcInvoke (channel : RequestResponseChannels) (args : RequestResponseParameters channel)
| IpcSendSync (channel : string)
| ActionCalled (f : Callable).

(** The collaborators: the transport's answer to a two-way call (which may
    depend on what was sent before) and the completion of a local action. *)
Record Environment : Type := mkEnvironment {
  ipcRenderer_invoke :
    list Event -> forall channel : RequestResponseChannels,
      RequestResponseParameters channel -> Promise (RequestResponseValue channel);
  run_closure : Callable -> Completion unit
}.

(** How a piece of renderer code ends: with a value, with an exception (a
    rejection, for an [async] function), or suspended at an [await] whose
    promise never settles. *)
Inductive Outcome (A : Type) : Type :=
| Done (a : A)
| Failed (e : JsError)
| Suspended.
Arguments Done {A} a.
Arguments Failed {A} e.
Arguments Suspended {A}.

Definition Renderer (A : Type) : Type := list Event -> Outcome A * list Event.

Definition ret {A} (a : A) : Renderer A := fun t => (Done a, t).

Definition bind {A B} (m : Renderer A) (k : A -> Renderer B) : Renderer B :=
  fun t =>
    match m t with
    | (Done a, t') => k a t'
    | (Failed e, t') => (Failed e, t')
    | (Suspended, t') => (Suspended, t')
    end.

Declare Scope renderer_scope.
Delimit Scope renderer_scope with renderer.
Notation "x <- c ;; k" := (bind c (fun x => k))
  (at level 61, c at next level, right associativity) : renderer_scope.
Notation "c ;;; k" := (bind c (fun _ => k))
  (at level 61, right associativity) : renderer_scope.

Definition emit (ev : Event) : Renderer unit := fun t => (Done tt, t ++ [ev]).

Definition lift {A} (c : Completion A) : Renderer A :=
  fun t => match c with
           | Returned a => (Done a, t)
           | Thrown e => (Failed e, t)
           end.

(** [await p]. *)
Definition await {A} (p : Promise A) : Renderer A :=
  fun t => match p with
           | Fulfilled v => (Done v, t)
           | Rejected e => (Failed e, t)
           | Pending => (Suspended, t)
           end.

(** The local actions called in a trace, in order. *)
Fixpoint actions_called (t : list Event) : list Callable :=
  match t with
  | [] => []
  | ActionCalled f :: t' => f :: actions_called t'
  | _ :: t' => actions_called t'
  end.

(** The transport calls of a trace, in order. *)
Fixpoint transport_calls (t : list Event) : list Event :=
  match t with
  | [] => []
  | ActionCalled _ :: t' => transport_calls t'
  | ev :: t' => ev :: transport_calls t'
  end.

Section Proxies.
Variable env : Environment.

(** [ipcRenderer.invoke(channel, ...args)]. *)
Definition ipc_invoke (channel : RequestResponseChannels)
           (args : RequestResponseParameters channel)
  : Renderer (Promise (RequestResponseValue channel)) :=
  fun t => (Done (ipcRenderer_invoke env t channel args), t ++ [IpcInvoke channel args]).

(** [ipcRenderer.send(channel, ...args)]. *)
Definition ipc_send (channel : RequestChannels) (args : RequestParameters channel)
  : Renderer unit :=
  emit (IpcSend channel args).

Definition invokeProxy (channel : RequestResponseChannels)
  : RequestResponseParameters channel -> Renderer (Promise (RequestResponseValue channel)) :=
  fun args => ipc_invoke channel args.

Definition sendProxy (channel : RequestChannels)
  : RequestParameters channel -> Renderer unit :=
  fun args => ipc_send channel args.

Definition _showContextualMenu := invokeProxy show_contextual_menu.
Definition _reportUncaughtException := sendProxy uncaught_exception.
Definition _sendErrorReport := sendProxy send_error_report.

Definition reportUncaughtException (error : JsError) : Renderer unit :=
  _reportUncaughtException (getIpcFriendlyError error).

Definition sendErrorReport (error : JsError) (extra : list (string * string))
           (nonFatal : bool) : Renderer unit :=
  _sendErrorReport (getIpcFriendlyError error, extra, nonFatal).

(** [o.action] where [o : IMenuItem | undefined]. *)
Definition get_action (o : option MenuItem) : Completion (option Callable) :=
  match o with
  | Some m => Returned (action m)
  | None => Thrown (TypeError "Cannot read properties of undefined (reading 'action')")
  end.

(** [f()] where [f] may be [undefined]. *)
Definition call (f : option Callable) : Renderer unit :=
  match f with
  | Some c => (emit (ActionCalled c) ;;; lift (run_closure env c))%renderer
  | None => lift (Thrown (TypeError "menuItem.action is not a function"))
  end.

(** [menuItem !== undefined && menuItem.action !== undefined]. *)
Definition has_action (menuItem : option MenuItem) : Completion bool :=
  if is_undefined menuItem then Returned false
  else (a <- get_action menuItem ;; Returned (negb (is_undefined a)))%js.

(** The [async] function; its second parameter defaults to [false]. *)
Definition showContextualMenu (items : list MenuItem)
           (mergeWithSpellcheckSuggestions : option bool) : Renderer unit :=
  let merge := match mergeWithSpellcheckSuggestions with
               | Some b => b
               | None => false
               end in
  (p <- _showContextualMenu (serializeMenuItems items, merge) ;;
   indices <- await p ;;
   match indices with
   | Some indices =>
       menuItem <- lift (findSubmenuItem items indices) ;;
       go <- lift (has_action menuItem) ;;
       if (go : bool) then
         f <- lift (get_action menuItem) ;;
         call f
       else ret tt
   | None => ret tt
   end)%renderer.
End Proxies.

(** ** The menu tree as shared objects *)

(** [serializeMenuItems] and [findSubmenuItem] receive a reference to the
    caller's array.  To speak about that array being left alone, the same
    two functions are also embedded over a store of objects: item objects
    refer to their submenu array, arrays hold references to item objects.
    An object literal and [Array.prototype.map] each allocate one new
    object; nothing in either function assigns to a property. *)
Module Store.

Definition loc : Type := nat.

Inductive Cell : Type :=
| ItemCell (id : option string) (action : option Callable) (submenu : option loc)
| ArrayCell (elems : list loc).

Definition Heap : Type := list Cell.

(** A computation over the store; [None] when it reads a reference that
    holds no object of the expected kind, or runs out of fuel. *)
Definition HeapM (A : Type) : Type := Heap -> option (A * Heap).

Definition hret {A} (a : A) : HeapM A := fun h => Some (a, h).

Definition hbind {A B} (m : HeapM A) (k : A -> HeapM B) : HeapM B :=
  fun h => match m h with
           | Some (a, h') => k a h'
           | None => None
           end.

Definition hfail {A} : HeapM A := fun _ => None.

Declare Scope heap_scope.
Delimit Scope heap_scope with heap.
Notation "x <- c ;; k" := (hbind c (fun x => k))
  (at level 61, c at next level, right associativity) : heap_scope.

(** A new object, at the next free location. *)
Definition alloc (c : Cell) : HeapM loc :=
  fun h => Some (List.length h, h ++ [c]).

Definition read (l : loc) : HeapM Cell :=
  fun h => match nth_error h l with
           | Some c => Some (c, h)
           | None => None
           end.

(** The elements of the array at [l]. *)
Definition read_array (l : loc) : HeapM (list loc) :=
  (c <- read l ;;
   match c with
   | ArrayCell elems => hret elems
   | ItemCell _ _ _ => hfail
   end)%heap.

(** [f] over the elements in order, as [Array.prototype.map] calls it. *)
Fixpoint mapM {A B} (f : A -> HeapM B) (xs : list A) : HeapM (list B) :=
  match xs with
  | [] => hret []
  | x :: xs' => (y <- f x ;; ys <- mapM f xs' ;; hret (y :: ys))%heap
  end.

(** The arrow function given to [items.map]; [serializeSubmenu] is the
    recursive call. *)
Definition serializeMenuItem (serializeSubmenu : loc -> HeapM loc) (item : loc)
  : HeapM loc :=
  (c <- read item ;;
   match c with
   | ItemCell i _ (Some sub) =>
       sub' <- serializeSubmenu sub ;;
       alloc (ItemCell i None (Some sub'))
   | ItemCell i _ None => alloc (ItemCell i None None)
   | ArrayCell _ => hfail
   end)%heap.

(** [serializeMenuItems(items)]; [fuel] bounds the depth of the recursion. *)
Fixpoint serializeMenuItems (fuel : nat) (items : loc) : HeapM loc :=
  match fuel with
  | O => hfail
  | S fuel' =>
      (elems <- read_array items ;;
       elems' <- mapM (serializeMenuItem (serializeMenuItems fuel')) elems ;;
       alloc (ArrayCell elems'))%heap
  end.

(** The loop of [findSubmenuItem] over references. *)
Fixpoint findSubmenuItem_loop (foundMenuItem : option loc) (indices : list Z)
  : HeapM (option loc) :=
  match indices with
  | [] => hret foundMenuItem
  | index :: rest =>
      match foundMenuItem with
      | None => hret None
      | Some l =>
          (c <- read l ;;
           match c with
           | ItemCell _ _ None => hret None
           | ItemCell _ _ (Some sub) =>
               elems <- read_array sub ;;
               findSubmenuItem_loop (array_get elems index) rest
           | ArrayCell _ => hfail
           end)%heap
      end
  end.

Definition findSubmenuItem (currentContextualMenuItems : loc) (indices : list Z)
  : HeapM (option loc) :=
  (root <- alloc (ItemCell None None (Some currentContextualMenuItems)) ;;
   findSubmenuItem_loop (Some root) indices)%heap.

#[local] Unset Elimination Schemes.

(** The object at [l] and what it refers to make up the tree [m]. *)
Inductive repr_item (h : Heap) : loc -> MenuItem -> Prop :=
| repr_leaf l i a :
    nth_error h l = Some (ItemCell i a None) ->
    repr_item h l (mkMenuItem i a None)
| repr_node l i a sub elems kids :
    nth_error h l = Some (ItemCell i a (Some sub)) ->
    nth_error h sub = Some (ArrayCell elems) ->
    Forall2 (repr_item h) elems kids ->
    repr_item h l (mkMenuItem i a (Some kids)).

#[local] Set Elimination Schemes.

(** The array at [l] holds the nodes [items]. *)
Definition repr_items (h : Heap) (l : loc) (items : list MenuItem) : Prop :=
  exists elems, nth_error h l = Some (ArrayCell elems)
                /\ Forall2 (repr_item h) elems items.

(** What [findSubmenuItem] returns, read back as a tree. *)
Definition repr_result (h : Heap) (r : option loc) (m : option MenuItem) : Prop :=
  match r, m with
  | Some l, Some n => repr_item h l n
  | None, None => True
  | _, _ => False
  end.

(** Every object of [h] is in [h'], at the same place and unchanged. *)
Definition unchanged (h h' : Heap) : Prop :=
  forall l c, nth_error h l = Some c -> nth_error h' l = Some c.

End Store.

(** ** Outcomes of the contextual-menu round trip *)

Definition merge_flag (mergeWithSpellcheckSuggestions : option bool) : bool :=
  match mergeWithSpellcheckSuggestions with
  | Some b => b
  | None => false
  end.

(** The answers of the main process after which nothing is to be run: the
    no-selection value [null], a path that resolves to [undefined], a path
    that resolves to a node without action, and the empty path. *)
Definition selects_nothing (items : list MenuItem)
           (reply : Promise (option (list Z))) : Prop :=
  reply = Fulfilled None
  \/ (exists indices, reply = Fulfilled (Some indices)
                      /\ findSubmenuItem items indices = Returned None)
  \/ (exists indices m, reply = Fulfilled (Some indices)
                        /\ findSubmenuItem items indices = Returned (Some m)
                        /\ action m = None)
  \/ reply = Fulfilled (Some []).

(** The tree of the example scenario:
    [[{id:"A", submenu:[{id:"A1", action: f}]}, {id:"B", action: g}]]. *)
Definition example_f : Callable := Closure "f".
Definition example_g : Callable := Closure "g".
Definition example_A1 : MenuItem := mkMenuItem (Some "A1") (Some example_f) None.
Definition example_A : MenuItem := mkMenuItem (Some "A") None (Some [example_A1]).
Definition example_B : MenuItem := mkMenuItem (Some "B") (Some example_g) None.
Definition example_tree : list MenuItem := [example_A; example_B].

(** A main process that answers every contextual menu with [reply], and
    local actions that return normally. *)
Definition example_env (reply : option (list Z)) : Environment :=
  {| ipcRenderer_invoke := fun _ channel =>
       match channel return RequestResponseParameters channel ->
                            Promise (RequestResponseValue channel) with
       | show_contextual_menu => fun _ => Fulfilled reply
       | _ => fun _ => Pending
       end;
     run_closure := fun _ => Returned tt |}.

(** The function always begins with the one request that carries the
    serialised tree and the merge flag. *)
Definition menu_request (items : list MenuItem)
           (mergeWithSpellcheckSuggestions : option bool) : Event :=
  IpcInvoke show_contextual_menu
            (serializeMenuItems items, merge_flag mergeWithSpellcheckSuggestions).

Definition menu_reply (env : Environment) (before : list Event)
           (items : list MenuItem) (mergeWithSpellcheckSuggestions : option bool)
  : Promise (option (list Z)) :=
  ipcRenderer_invoke env before show_contextual_menu
    (serializeMenuItems items, merge_flag mergeWithSpellcheckSuggestions).

(** The example tree as objects: the array at [example_items] holds the
    two top-level items. *)
Definition example_heap : Store.Heap :=
  [Store.ItemCell (Some "A1") (Some example_f) None;
   Store.ArrayCell [0%nat];
   Store.ItemCell (Some "A") None (Some 1%nat);
   Store.ItemCell (Some "B") (Some example_g) None;
   Store.ArrayCell [2%nat; 3%nat]].

Definition example_items : Store.loc := 4%nat.

(** The tree below [l] consists of objects at locations from [n] on. *)
#[local] Unset Elimination Schemes.
#[local] Set Elimination Schemes.


(** * Properties *)

(** ** Resolving a path *)

Lemma array_get_in_range {A} (xs : list A) (index : Z) (x : A) :
  0 <= index -> nth_error xs (Z.to_nat index) = Some x ->
  array_get xs index = Some x.
Proof.
  intros Hpos Hnth. unfold array_get.
  destruct (index <? 0) eqn:Hneg; [apply Z.ltb_lt in Hneg; lia | exact Hnth].
Qed.

Lemma array_get_out_of_range {A} (xs : list A) (index : Z) :
  index < 0 \/ Z.of_nat (List.length xs) <= index ->
  array_get xs index = None.
Proof.
  intros Hout. unfold array_get.
  destruct (index <? 0) eqn:Hneg; [reflexivity|].
  apply Z.ltb_ge in Hneg. apply nth_error_None. lia.
Qed.

Lemma array_get_Some {A} (xs : list A) (index : Z) (x : A) :
  array_get xs index = Some x ->
  0 <= index < Z.of_nat (List.length xs)
  /\ nth_error xs (Z.to_nat index) = Some x.
Proof.
  unfold array_get. destruct (index <? 0) eqn:Hneg; [discriminate|].
  apply Z.ltb_ge in Hneg. intros Hnth. split; [|exact Hnth].
  assert (Z.to_nat index < List.length xs)%nat
    by (apply nth_error_Some; rewrite Hnth; discriminate).
  lia.
Qed.

(** Once [foundMenuItem] is [undefined] the loop can only return
    [undefined]. *)
Lemma findSubmenuItem_loop_undefined (indices : list Z) :
  findSubmenuItem_loop None indices = Returned None.
Proof. destruct indices; reflexivity. Qed.

(** One turn of the loop at a node that has a submenu. *)
Lemma findSubmenuItem_loop_step n kids index rest :
  submenu n = Some kids ->
  findSubmenuItem_loop (Some n) (index :: rest)
  = findSubmenuItem_loop (array_get kids index) rest.
Proof. intros Hsub. cbn. rewrite Hsub. reflexivity. Qed.

Lemma findSubmenuItem_loop_no_submenu n index rest :
  submenu n = None ->
  findSubmenuItem_loop (Some n) (index :: rest) = Returned None.
Proof. intros Hsub. cbn. rewrite Hsub. reflexivity. Qed.

Lemma findSubmenuItem_loop_reaches n indices m :
  Reaches n indices m ->
  findSubmenuItem_loop (Some n) indices = Returned (Some m).
Proof.
  induction 1 as [n | n kids index child rest m Hsub Hrange Hnth _ IH].
  - reflexivity.
  - rewrite (findSubmenuItem_loop_step _ _ _ _ Hsub).
    rewrite (array_get_in_range _ _ _ (proj1 Hrange) Hnth). exact IH.
Qed.

Lemma findSubmenuItem_loop_misses n indices :
  Misses n indices ->
  findSubmenuItem_loop (Some n) indices = Returned None.
Proof.
  induction 1 as [n index rest Hsub
                 | n kids index rest Hsub Hout
                 | n kids index child rest Hsub Hrange Hnth _ IH].
  - apply findSubmenuItem_loop_no_submenu, Hsub.
  - rewrite (findSubmenuItem_loop_step _ _ _ _ Hsub).
    rewrite (array_get_out_of_range _ _ Hout).
    apply findSubmenuItem_loop_undefined.
  - rewrite (findSubmenuItem_loop_step _ _ _ _ Hsub).
    rewrite (array_get_in_range _ _ _ (proj1 Hrange) Hnth). exact IH.
Qed.

(** Every path either reaches a node or misses. *)
Lemma Reaches_or_Misses (indices : list Z) :
  forall n, (exists m, Reaches n indices m) \/ Misses n indices.
Proof.
  induction indices as [|index rest IH]; intros n.
  - left. exists n. constructor.
  - destruct (submenu n) as [kids|] eqn:Hsub.
    + destruct (array_get kids index) as [child|] eqn:Hget.
      * apply array_get_Some in Hget. destruct Hget as [Hrange Hnth].
        destruct (IH child) as [[m Hm] | Hmiss].
        -- left. exists m. econstructor; eassumption.
        -- right. eapply Misses_below; eassumption.
      * right. eapply Misses_out_of_range; [eassumption|].
        unfold array_get in Hget.
        destruct (index <? 0) eqn:Hneg.
        -- left. apply Z.ltb_lt. exact Hneg.
        -- right. apply Z.ltb_ge in Hneg. apply nth_error_None in Hget. lia.
    + right. apply Misses_no_submenu. exact Hsub.
Qed.

(** The code never reads a property of [undefined]: it returns on every
    tree and every path. *)
Lemma findSubmenuItem_returns items indices :
  exists r, findSubmenuItem items indices = Returned r.
Proof.
  unfold findSubmenuItem.
  destruct (Reaches_or_Misses indices (synthetic_root items)) as [[m Hm] | Hmiss].
  - exists (Some m). apply findSubmenuItem_loop_reaches, Hm.
  - exists None. apply findSubmenuItem_loop_misses, Hmiss.
Qed.

(** C1: for every menu tree and every path whose indices are valid child
    positions at each successive level, starting from the synthetic root
    whose submenu is the top-level sequence, [findSubmenuItem] returns
    exactly the node reached by following the indices positionally. *)
Theorem findSubmenuItem_valid_path (items : list MenuItem) (indices : list Z)
        (m : MenuItem) (Hpath : Reaches (synthetic_root items) indices m) :
  findSubmenuItem items indices = Returned (Some m).
Proof. unfold findSubmenuItem. apply findSubmenuItem_loop_reaches, Hpath. Qed.

Lemma Reaches_example_A1 : Reaches (synthetic_root example_tree) [0; 0] example_A1.
Proof.
  eapply Reaches_child with (kids := example_tree) (child := example_A);
    [reflexivity | cbn; lia | reflexivity |].
  eapply Reaches_child with (kids := [example_A1]) (child := example_A1);
    [reflexivity | cbn; lia | reflexivity | constructor].
Qed.

Lemma findSubmenuItem_valid_path_witness :
  Reaches (synthetic_root example_tree) [0; 0] example_A1
  /\ findSubmenuItem example_tree [0; 0] = Returned (Some example_A1).
Proof.
  split; [exact Reaches_example_A1|].
  apply (findSubmenuItem_valid_path example_tree [0; 0] example_A1).
  exact Reaches_example_A1.
Defined.

(** C3: for every menu tree and every path, if some index is out of range
    at its level, or the path goes on through a node that is undefined or
    has no submenu, [findSubmenuItem] returns [undefined]; it does not
    throw. *)
Theorem findSubmenuItem_malformed_path (items : list MenuItem) (indices : list Z)
        (Hpath : Misses (synthetic_root items) indices) :
  findSubmenuItem items indices = Returned None.
Proof. unfold findSubmenuItem. apply findSubmenuItem_loop_misses, Hpath. Qed.

Lemma Misses_example_5 : Misses (synthetic_root example_tree) [5].
Proof. eapply Misses_out_of_range; [reflexivity | right; cbn; lia]. Qed.

Lemma findSubmenuItem_malformed_path_witness :
  Misses (synthetic_root example_tree) [5]
  /\ findSubmenuItem example_tree [5] = Returned None.
Proof.
  split; [exact Misses_example_5|].
  apply (findSubmenuItem_malformed_path example_tree [5]).
  exact Misses_example_5.
Defined.

(** The paths of the example scenario. *)
Example findSubmenuItem_example_B :
  findSubmenuItem example_tree [1] = Returned (Some example_B).
Proof. reflexivity. Qed.

Example findSubmenuItem_example_below_leaf :
  findSubmenuItem example_tree [1; 0] = Returned None.
Proof. reflexivity. Qed.

Example findSubmenuItem_example_negative :
  findSubmenuItem example_tree [-1; 0] = Returned None.
Proof. reflexivity. Qed.


(** ** Serialising a tree *)

Lemma serializeMenuItem_action_free (item : MenuItem) :
  ActionFree (serializeMenuItem item).
Proof.
  induction item as [i a | i a kids IH] using MenuItem_tree_ind; cbn.
  - constructor.
  - constructor. induction IH; cbn; constructor; assumption.
Qed.

Lemma serializeMenuItem_same_shape (item : MenuItem) :
  SameShape item (serializeMenuItem item).
Proof.
  induction item as [i a | i a kids IH] using MenuItem_tree_ind; cbn.
  - constructor.
  - constructor. induction IH; cbn; constructor; assumption.
Qed.

Lemma SameShape_id m m' : SameShape m m' -> id m = id m'.
Proof. destruct 1; reflexivity. Qed.

Lemma SameShape_depth (m : MenuItem) :
  forall m', SameShape m m' -> depth m = depth m'.
Proof.
  induction m as [i a | i a kids IH] using MenuItem_tree_ind;
    intros m' Hshape; inversion Hshape as [| ? ? ? ? kids' Hkids]; subst.
  - reflexivity.
  - cbn. f_equal. clear Hshape.
    revert kids' Hkids.
    induction IH as [| k ks Hk _ IHks]; intros kids' Hkids;
      inversion Hkids; subst; cbn.
    + reflexivity.
    + f_equal; [apply Hk; assumption | apply IHks; assumption].
Qed.

Lemma Forall2_SameShape_depths items items' :
  Forall2 SameShape items items' -> depths items = depths items'.
Proof.
  unfold depths. induction 1 as [| m m' ms ms' Hm _ IH]; cbn.
  - reflexivity.
  - rewrite (SameShape_depth _ _ Hm), IH. reflexivity.
Qed.

Lemma serializeMenuItem_idempotent (item : MenuItem) :
  serializeMenuItem (serializeMenuItem item) = serializeMenuItem item.
Proof.
  induction item as [i a | i a kids IH] using MenuItem_tree_ind; cbn.
  - reflexivity.
  - do 2 f_equal. rewrite map_map.
    induction IH as [| k ks Hk _ IHks]; cbn.
    + reflexivity.
    + rewrite Hk, IHks. reflexivity.
Qed.

(** C2: for every menu tree, the output of [serializeMenuItems] carries no
    action at any node at any depth, and is otherwise the input: same
    identifiers, same order of children, same nesting, submenus converted
    recursively. *)
Theorem serializeMenuItems_strips_actions_only (items : list MenuItem) :
  Forall ActionFree (serializeMenuItems items)
  /\ Forall2 SameShape items (serializeMenuItems items)
  /\ map id (serializeMenuItems items) = map id items
  /\ List.length (serializeMenuItems items) = List.length items
  /\ depths (serializeMenuItems items) = depths items.
Proof.
  assert (Hshape : Forall2 SameShape items (serializeMenuItems items)).
  { unfold serializeMenuItems.
    induction items as [| m ms IH]; cbn; constructor;
      [apply serializeMenuItem_same_shape | exact IH]. }
  repeat split.
  - unfold serializeMenuItems. apply Forall_forall. intros m Hin.
    apply in_map_iff in Hin. destruct Hin as [m0 [Heq _]]. subst m.
    apply serializeMenuItem_action_free.
  - exact Hshape.
  - induction Hshape as [| m m' ms ms' Hm _ IH]; cbn.
    + reflexivity.
    + rewrite (SameShape_id _ _ Hm), IH. reflexivity.
  - unfold serializeMenuItems. apply length_map.
  - symmetry. apply Forall2_SameShape_depths, Hshape.
Qed.

Example serializeMenuItems_example :
  serializeMenuItems example_tree
  = [mkMenuItem (Some "A") None (Some [mkMenuItem (Some "A1") None None]);
     mkMenuItem (Some "B") None None].
Proof. reflexivity. Qed.

(** C7: [serializeMenuItems] is idempotent: applied to its own output it
    yields an equal tree. *)
Theorem serializeMenuItems_idempotent (items : list MenuItem) :
  serializeMenuItems (serializeMenuItems items) = serializeMenuItems items.
Proof.
  unfold serializeMenuItems. rewrite map_map.
  apply map_ext. intros m. apply serializeMenuItem_idempotent.
Qed.

(** ** Normalising an error *)

Lemma or_string_truthy (s fallback : string) :
  s <> "" -> or_string (Some s) fallback = s.
Proof.
  intros Hs. cbn. destruct (String.eqb s "") eqn:Heq; [|reflexivity].
  apply String.eqb_eq in Heq. contradiction.
Qed.

Lemma or_string_falsy (x : option string) (fallback : string) :
  x = None \/ x = Some "" -> or_string x fallback = fallback.
Proof. intros [-> | ->]; reflexivity. Qed.

(** The name of the record is the interpolation of the name field whatever
    the field holds, since interpolating a string gives the string. *)
Lemma getIpcFriendlyError_name (error : JsError) :
  name (getIpcFriendlyError error) = template (error_name error).
Proof.
  cbn. destruct (error_name error) as [s|]; cbn; [|reflexivity].
  destruct (String.eqb s ""); reflexivity.
Qed.

(** C5: the fallback of the name is drawn from the name field itself: for
    every error whose name is absent or empty, the resulting name is the
    string interpolation of that same field, so that an absent name comes
    out as the interpolation of [undefined] and an empty one stays empty. *)
Theorem getIpcFriendlyError_name_fallback (error : JsError)
        (Hname : error_name error = None \/ error_name error = Some "") :
  name (getIpcFriendlyError error) = template (error_name error)
  /\ (error_name error = None -> name (getIpcFriendlyError error) = "undefined")
  /\ (error_name error = Some "" -> name (getIpcFriendlyError error) = "").
Proof.
  split; [apply getIpcFriendlyError_name|].
  split; intros Heq; rewrite getIpcFriendlyError_name, Heq; reflexivity.
Qed.

Lemma getIpcFriendlyError_name_fallback_witness :
  let error := mkJsError (Some "boom") None None in
  (error_name error = None \/ error_name error = Some "")
  /\ name (getIpcFriendlyError error) = "undefined".
Proof.
  cbv zeta. split; [left; reflexivity|].
  apply (getIpcFriendlyError_name_fallback (mkJsError (Some "boom") None None));
    [left; reflexivity | reflexivity].
Defined.

(** C6: an error with message "boom", name "TypeError" and a stack trace
    that is present (a non-empty string, which is what [||] takes for
    present) gives a record with those three values unchanged; and for
    every error whose message is empty or absent the message of the record
    is the string conversion of the error. *)
Theorem getIpcFriendlyError_fields (trace : string) (error : JsError)
        (Htrace : trace <> "")
        (Hmessage : error_message error = None \/ error_message error = Some "") :
  getIpcFriendlyError (mkJsError (Some "boom") (Some "TypeError") (Some trace))
  = mkIpcFriendlyError "boom" "TypeError" (Some trace)
  /\ message (getIpcFriendlyError error) = Error_toString error.
Proof.
  split.
  - unfold getIpcFriendlyError; cbn.
    destruct (String.eqb trace "") eqn:Heq; [|reflexivity].
    apply String.eqb_eq in Heq. contradiction.
  - cbn. apply or_string_falsy, Hmessage.
Qed.

Lemma getIpcFriendlyError_fields_witness :
  let trace := "TypeError: boom at main.js:1:1" in
  let error := mkJsError (Some "") (Some "RangeError") None in
  trace <> ""
  /\ (error_message error = None \/ error_message error = Some "")
  /\ getIpcFriendlyError (mkJsError (Some "boom") (Some "TypeError") (Some trace))
     = mkIpcFriendlyError "boom" "TypeError" (Some trace)
  /\ message (getIpcFriendlyError error) = "RangeError".
Proof.
  cbv zeta. split; [discriminate|]. split; [right; reflexivity|].
  apply (getIpcFriendlyError_fields "TypeError: boom at main.js:1:1"
           (mkJsError (Some "") (Some "RangeError") None));
    [discriminate | right; reflexivity].
Defined.

(** C10: for every error whose stack is the empty string the record has no
    stack: an empty stack is treated as a missing one. *)
Theorem getIpcFriendlyError_empty_stack (error : JsError)
        (Hstack : error_stack error = Some "") :
  stack (getIpcFriendlyError error) = None
  /\ stack (getIpcFriendlyError error)
     = stack (getIpcFriendlyError
                (mkJsError (error_message error) (error_name error) None)).
Proof. cbn. rewrite Hstack. split; reflexivity. Qed.

Lemma getIpcFriendlyError_empty_stack_witness :
  let error := mkJsError (Some "boom") (Some "TypeError") (Some "") in
  error_stack error = Some ""
  /\ stack (getIpcFriendlyError error) = None.
Proof.
  cbv zeta. split; [reflexivity|].
  apply (getIpcFriendlyError_empty_stack
           (mkJsError (Some "boom") (Some "TypeError") (Some ""))).
  reflexivity.
Defined.

(** ** The proxies *)

(** C8: for every channel of the two tables and every argument tuple, one
    call of a proxy made by [sendProxy] or [invokeProxy] adds exactly one
    transport call to what happened before, with the same channel and the
    same arguments; the sender returns no value, the invoker returns the
    promise of the transport as it is. *)
Theorem proxy_forwards_once (env : Environment) (before : list Event) :
  (forall (channel : RequestChannels) (args : RequestParameters channel),
      sendProxy channel args before = (Done tt, before ++ [IpcSend channel args]))
  /\ (forall (channel : RequestResponseChannels)
             (args : RequestResponseParameters channel),
         invokeProxy env channel args before
         = (Done (ipcRenderer_invoke env before channel args),
            before ++ [IpcInvoke channel args])).
Proof. split; intros channel args; reflexivity. Qed.

Lemma transport_calls_app (t u : list Event) :
  transport_calls (t ++ u) = transport_calls t ++ transport_calls u.
Proof.
  induction t as [| ev t IH]; cbn; [reflexivity|].
  destruct ev; cbn; rewrite IH; reflexivity.
Qed.

Lemma actions_called_app (t u : list Event) :
  actions_called (t ++ u) = actions_called t ++ actions_called u.
Proof.
  induction t as [| ev t IH]; cbn; [reflexivity|].
  destruct ev; cbn; rewrite IH; reflexivity.
Qed.

(** An error report is one notification carrying the normalised error. *)
Lemma sendErrorReport_sends error extra nonFatal before :
  sendErrorReport error extra nonFatal before
  = (Done tt,
     before ++ [IpcSend send_error_report (getIpcFriendlyError error, extra, nonFatal)]).
Proof. reflexivity. Qed.

Lemma reportUncaughtException_sends error before :
  reportUncaughtException error before
  = (Done tt, before ++ [IpcSend uncaught_exception (getIpcFriendlyError error)]).
Proof. reflexivity. Qed.

(** ** The contextual-menu round trip *)

Lemma showContextualMenu_unfold env items merge before :
  showContextualMenu env items merge before
  = match menu_reply env before items merge with
    | Fulfilled (Some indices) =>
        match findSubmenuItem items indices with
        | Returned (Some m) =>
            match action m with
            | Some f =>
                match run_closure env f with
                | Returned _ =>
                    (Done tt, (before ++ [menu_request items merge]) ++ [ActionCalled f])
                | Thrown e =>
                    (Failed e, (before ++ [menu_request items merge]) ++ [ActionCalled f])
                end
            | None => (Done tt, before ++ [menu_request items merge])
            end
        | Returned None => (Done tt, before ++ [menu_request items merge])
        | Thrown e => (Failed e, before ++ [menu_request items merge])
        end
    | Fulfilled None => (Done tt, before ++ [menu_request items merge])
    | Rejected e => (Failed e, before ++ [menu_request items merge])
    | Pending => (Suspended, before ++ [menu_request items merge])
    end.
Proof.
  unfold showContextualMenu, menu_reply, menu_request, merge_flag,
    _showContextualMenu, invokeProxy, ipc_invoke, bind, await, lift, ret.
  destruct (ipcRenderer_invoke env before show_contextual_menu _)
    as [[indices|] | e |]; try reflexivity.
  destruct (findSubmenuItem items indices) as [[m|] | e]; try reflexivity.
  unfold has_action, get_action, call, bind, emit, lift; cbn.
  destruct (action m) as [f|]; cbn; [|reflexivity].
  destruct (run_closure env f) as [[] | e]; reflexivity.
Qed.

Lemma findSubmenuItem_empty_path items :
  findSubmenuItem items [] = Returned (Some (synthetic_root items)).
Proof. reflexivity. Qed.

(** C4: [showContextualMenu] calls no action when the main process answers
    with the no-selection value, when the path does not resolve to a node,
    and when the resolved node has no action; in particular the empty path
    resolves to the synthetic root, which has none.  All that happens is
    the one request. *)
Theorem showContextualMenu_calls_nothing (env : Environment)
        (items : list MenuItem) (mergeWithSpellcheckSuggestions : option bool)
        (before : list Event)
        (Hreply : selects_nothing items
                    (menu_reply env before items mergeWithSpellcheckSuggestions)) :
  showContextualMenu env items mergeWithSpellcheckSuggestions before
  = (Done tt, before ++ [menu_request items mergeWithSpellcheckSuggestions])
  /\ actions_called
       (snd (showContextualMenu env items mergeWithSpellcheckSuggestions before))
     = actions_called before
  /\ findSubmenuItem items [] = Returned (Some (synthetic_root items))
  /\ action (synthetic_root items) = None.
Proof.
  assert (Hrun : showContextualMenu env items mergeWithSpellcheckSuggestions before
                 = (Done tt, before ++ [menu_request items mergeWithSpellcheckSuggestions])).
  { rewrite showContextualMenu_unfold.
    destruct Hreply as [-> | [[indices [-> Hnone]] | [[indices [m [-> [Hsome Hact]]]] | ->]]].
    - reflexivity.
    - rewrite Hnone. reflexivity.
    - rewrite Hsome, Hact. reflexivity.
    - rewrite findSubmenuItem_empty_path. reflexivity. }
  split; [exact Hrun|]. split; [|split; reflexivity].
  rewrite Hrun. cbn [snd]. rewrite actions_called_app. cbn.
  apply app_nil_r.
Qed.

Lemma showContextualMenu_calls_nothing_witness :
  selects_nothing example_tree
    (menu_reply (example_env (Some [5])) [] example_tree None)
  /\ actions_called (snd (showContextualMenu (example_env (Some [5])) example_tree None []))
     = [].
Proof.
  assert (H : selects_nothing example_tree
                (menu_reply (example_env (Some [5])) [] example_tree None)).
  { right; left. exists [5]. split; reflexivity. }
  split; [exact H|].
  apply (showContextualMenu_calls_nothing (example_env (Some [5])) example_tree None [] H).
Defined.

(** The other side: a node with an action has it called, once, after the
    request. *)
Lemma showContextualMenu_calls_action env items merge before indices m f :
  menu_reply env before items merge = Fulfilled (Some indices) ->
  findSubmenuItem items indices = Returned (Some m) ->
  action m = Some f ->
  snd (showContextualMenu env items merge before)
  = before ++ [menu_request items merge; ActionCalled f].
Proof.
  intros Hreply Hfind Hact.
  rewrite showContextualMenu_unfold, Hreply, Hfind, Hact.
  rewrite <- app_assoc. cbn.
  destruct (run_closure env f); reflexivity.
Qed.

(** The example scenario: [[0,0]] calls [f], [[1]] calls [g], [[5]],
    the empty path and [null] call nothing. *)
Example showContextualMenu_example_f :
  actions_called (snd (showContextualMenu (example_env (Some [0; 0])) example_tree None []))
  = [example_f].
Proof. reflexivity. Qed.

Example showContextualMenu_example_g :
  actions_called (snd (showContextualMenu (example_env (Some [1])) example_tree None []))
  = [example_g].
Proof. reflexivity. Qed.

Example showContextualMenu_example_out_of_range :
  showContextualMenu (example_env (Some [5])) example_tree None []
  = (Done tt, [menu_request example_tree None]).
Proof. reflexivity. Qed.

Example showContextualMenu_example_empty_path :
  showContextualMenu (example_env (Some [])) example_tree None []
  = (Done tt, [menu_request example_tree None]).
Proof. reflexivity. Qed.

Example showContextualMenu_example_cancelled :
  showContextualMenu (example_env None) example_tree None []
  = (Done tt, [menu_request example_tree None]).
Proof. reflexivity. Qed.

(** ** The caller's tree is left alone *)

Lemma unchanged_refl (h : Store.Heap) : Store.unchanged h h.
Proof. intros l c H. exact H. Qed.

Lemma unchanged_trans (h1 h2 h3 : Store.Heap) :
  Store.unchanged h1 h2 -> Store.unchanged h2 h3 -> Store.unchanged h1 h3.
Proof. intros H12 H23 l c H. apply H23, H12, H. Qed.

Lemma unchanged_app (h extra : Store.Heap) : Store.unchanged h (h ++ extra).
Proof.
  intros l c H. rewrite nth_error_app1; [exact H|].
  apply nth_error_Some. rewrite H. discriminate.
Qed.

Lemma nth_error_new (h : Store.Heap) (c : Store.Cell) :
  nth_error (h ++ [c]) (List.length h) = Some c.
Proof. rewrite nth_error_app2, Nat.sub_diag; [reflexivity | apply Nat.le_refl]. Qed.

(** A tree read from the store is still there in any store that keeps the
    old objects. *)
Lemma repr_item_unchanged (h h' : Store.Heap) (Hkeep : Store.unchanged h h')
      (m : MenuItem) :
  forall l, Store.repr_item h l m -> Store.repr_item h' l m.
Proof.
  induction m as [i a | i a kids IH] using MenuItem_tree_ind; intros l Hrepr;
    inversion Hrepr as [? ? ? Hcell | ? ? ? sub elems ? Hcell Harr Hkids]; subst.
  - apply Store.repr_leaf. apply Hkeep, Hcell.
  - eapply Store.repr_node; [apply Hkeep, Hcell | apply Hkeep, Harr |].
    clear Hrepr Harr Hcell.
    revert elems Hkids.
    induction IH as [| k ks Hk _ IHks]; intros elems Hkids;
      inversion Hkids; subst; constructor.
    + apply Hk. assumption.
    + apply IHks. assumption.
Qed.

Lemma Forall2_repr_item_unchanged h h' elems items :
  Store.unchanged h h' ->
  Forall2 (Store.repr_item h) elems items ->
  Forall2 (Store.repr_item h') elems items.
Proof.
  intros Hkeep. induction 1; constructor;
    [eapply repr_item_unchanged; eassumption | assumption].
Qed.

Lemma repr_items_unchanged h h' l items :
  Store.unchanged h h' ->
  Store.repr_items h l items -> Store.repr_items h' l items.
Proof.
  intros Hkeep [elems [Harr Hall]]. exists elems.
  split; [apply Hkeep, Harr | eapply Forall2_repr_item_unchanged; eassumption].
Qed.

(** *** Neither function writes, on any store *)

Lemma store_mapM_extends {A B} (f : A -> Store.HeapM B) (xs : list A) :
  (forall x h y h', f x h = Some (y, h') -> exists extra, h' = h ++ extra) ->
  forall h ys h', Store.mapM f xs h = Some (ys, h') -> exists extra, h' = h ++ extra.
Proof.
  intros Hf. induction xs as [| x xs IH]; intros h ys h' Hrun; cbn in Hrun.
  - injection Hrun as _ <-. exists []. symmetry. apply app_nil_r.
  - unfold Store.hbind in Hrun.
    destruct (f x h) as [[y h1]|] eqn:Hx; [|discriminate].
    destruct (Store.mapM f xs h1) as [[ys' h2]|] eqn:Hxs; [|discriminate].
    cbn in Hrun. injection Hrun as _ <-.
    destruct (Hf _ _ _ _ Hx) as [e1 ->].
    destruct (IH _ _ _ Hxs) as [e2 ->].
    exists (e1 ++ e2). symmetry. apply app_assoc.
Qed.

Lemma store_serializeMenuItem_extends (serializeSubmenu : Store.loc -> Store.HeapM Store.loc) :
  (forall sub h out h', serializeSubmenu sub h = Some (out, h') ->
                        exists extra, h' = h ++ extra) ->
  forall item h out h',
    Store.serializeMenuItem serializeSubmenu item h = Some (out, h') ->
    exists extra, h' = h ++ extra.
Proof.
  intros Hsub item h out h' Hrun.
  unfold Store.serializeMenuItem, Store.hbind, Store.read in Hrun.
  destruct (nth_error h item) as [[i a [sub|] | ?]|]; try discriminate.
  - destruct (serializeSubmenu sub h) as [[sub' h1]|] eqn:Hcall; [|discriminate].
    destruct (Hsub _ _ _ _ Hcall) as [e ->].
    cbn in Hrun. injection Hrun as _ <-.
    exists (e ++ [Store.ItemCell i None (Some sub')]). symmetry. apply app_assoc.
  - cbn in Hrun. injection Hrun as _ <-. eexists. reflexivity.
Qed.

Lemma store_serializeMenuItems_extends (fuel : nat) :
  forall items h out h',
    Store.serializeMenuItems fuel items h = Some (out, h') ->
    exists extra, h' = h ++ extra.
Proof.
  induction fuel as [| fuel IH]; intros items h out h' Hrun; cbn in Hrun.
  - discriminate.
  - unfold Store.hbind at 1 in Hrun.
    unfold Store.read_array, Store.read, Store.hbind at 1 in Hrun.
    destruct (nth_error h items) as [[| elems]|]; try discriminate.
    cbn in Hrun. unfold Store.hbind at 1 in Hrun.
    destruct (Store.mapM (Store.serializeMenuItem (Store.serializeMenuItems fuel)) elems h)
      as [[elems' h1]|] eqn:Hmap; [|discriminate].
    apply store_mapM_extends in Hmap;
      [|apply store_serializeMenuItem_extends; exact IH].
    destruct Hmap as [e1 ->]. cbn in Hrun. injection Hrun as _ <-.
    exists (e1 ++ [Store.ArrayCell elems']). symmetry. apply app_assoc.
Qed.

Lemma store_findSubmenuItem_loop_reads_only (indices : list Z) :
  forall found h r h',
    Store.findSubmenuItem_loop found indices h = Some (r, h') -> h' = h.
Proof.
  induction indices as [| index rest IH]; intros found h r h' Hrun; cbn in Hrun.
  - injection Hrun as _ <-. reflexivity.
  - destruct found as [l|]; [|injection Hrun as _ <-; reflexivity].
    unfold Store.hbind at 1, Store.read in Hrun.
    destruct (nth_error h l) as [[i a [sub|] | ?]|]; try discriminate.
    + unfold Store.read_array, Store.hbind, Store.read in Hrun.
      destruct (nth_error h sub) as [[| elems]|]; try discriminate.
      cbn in Hrun. eapply IH. exact Hrun.
    + injection Hrun as _ <-. reflexivity.
Qed.

Lemma store_findSubmenuItem_extends items indices h r h' :
  Store.findSubmenuItem items indices h = Some (r, h') ->
  h' = h ++ [Store.ItemCell None None (Some items)].
Proof.
  unfold Store.findSubmenuItem, Store.hbind, Store.alloc. intros Hrun.
  apply store_findSubmenuItem_loop_reads_only in Hrun. exact Hrun.
Qed.

(** *** On a store that holds a tree, both functions return and agree with
    their value-level counterparts *)

Lemma depths_cons (m : MenuItem) (ms : list MenuItem) :
  depths (m :: ms) = Nat.max (depth m) (depths ms).
Proof. reflexivity. Qed.

Lemma depth_node i a kids : depth (mkMenuItem i a (Some kids)) = S (depths kids).
Proof. reflexivity. Qed.

(** One item, given that the recursive call is right on its submenu. *)
Lemma store_serializeMenuItem_refines
      (serializeSubmenu : Store.loc -> Store.HeapM Store.loc) (bound : nat)
      (Hsub : forall kids h sub,
          (depths kids < bound)%nat ->
          Store.repr_items h sub kids ->
          exists out extra,
            serializeSubmenu sub h = Some (out, h ++ extra)
            /\ Store.repr_items (h ++ extra) out (serializeMenuItems kids))
      (m : MenuItem) (h : Store.Heap) (item : Store.loc) :
  (depth m <= bound)%nat ->
  Store.repr_item h item m ->
  exists out extra,
    Store.serializeMenuItem serializeSubmenu item h = Some (out, h ++ extra)
    /\ Store.repr_item (h ++ extra) out (serializeMenuItem m).
Proof.
  intros Hdepth Hrepr.
  inversion Hrepr as [? i a Hcell | ? i a sub elems kids Hcell Harr Hkids]; subst.
  - exists (List.length h), [Store.ItemCell i None None]. split.
    + unfold Store.serializeMenuItem, Store.hbind, Store.read. rewrite Hcell.
      reflexivity.
    + cbn. apply Store.repr_leaf. apply nth_error_new.
  - rewrite depth_node in Hdepth.
    destruct (Hsub kids h sub) as [sub' [e [Hcall Hout]]].
    + lia.
    + exists elems. split; assumption.
    + exists (List.length (h ++ e)), (e ++ [Store.ItemCell i None (Some sub')]). split.
      * unfold Store.serializeMenuItem, Store.hbind, Store.read. rewrite Hcell, Hcall.
        cbn. unfold Store.alloc. rewrite app_assoc. reflexivity.
      * rewrite app_assoc. destruct Hout as [elems' [Harr' Hkids']].
        cbn. eapply Store.repr_node with (sub := sub') (elems := elems').
        -- apply nth_error_new.
        -- apply unchanged_app, Harr'.
        -- eapply Forall2_repr_item_unchanged; [apply unchanged_app | exact Hkids'].
Qed.

(** The items of an array in turn; each call sees the objects the earlier
    ones allocated, and the old ones still in place. *)
Lemma store_mapM_refines (f : Store.loc -> Store.HeapM Store.loc) (bound : nat)
      (Hf : forall m h item,
          (depth m <= bound)%nat ->
          Store.repr_item h item m ->
          exists out extra,
            f item h = Some (out, h ++ extra)
            /\ Store.repr_item (h ++ extra) out (serializeMenuItem m))
      (items : list MenuItem) :
  forall elems h,
    (depths items <= bound)%nat ->
    Forall2 (Store.repr_item h) elems items ->
    exists elems' extra,
      Store.mapM f elems h = Some (elems', h ++ extra)
      /\ Forall2 (Store.repr_item (h ++ extra)) elems' (serializeMenuItems items).
Proof.
  induction items as [| m ms IH]; intros elems h Hdepth Hall;
    inversion Hall as [| item ? rest ? Hm Hms]; subst.
  - exists [], []. split; [cbn; rewrite app_nil_r; reflexivity | constructor].
  - rewrite depths_cons in Hdepth.
    destruct (Hf m h item) as [out [e1 [Hrun Hout]]]; [lia | exact Hm |].
    destruct (IH rest (h ++ e1)) as [outs [e2 [Hruns Houts]]].
    + lia.
    + eapply Forall2_repr_item_unchanged; [apply unchanged_app | exact Hms].
    + exists (out :: outs), (e1 ++ e2). split.
      * cbn. unfold Store.hbind. rewrite Hrun, Hruns. cbn.
        rewrite app_assoc. reflexivity.
      * rewrite app_assoc. cbn. constructor; [|exact Houts].
        eapply repr_item_unchanged; [apply unchanged_app | exact Hout].
Qed.

Lemma store_serializeMenuItems_refines (fuel : nat) :
  forall items h l,
    (depths items < fuel)%nat ->
    Store.repr_items h l items ->
    exists out extra,
      Store.serializeMenuItems fuel l h = Some (out, h ++ extra)
      /\ Store.repr_items (h ++ extra) out (serializeMenuItems items).
Proof.
  induction fuel as [| fuel IH]; intros items h l Hfuel [elems [Harr Hall]].
  - lia.
  - destruct (store_mapM_refines
                (Store.serializeMenuItem (Store.serializeMenuItems fuel)) fuel)
      with (items := items) (elems := elems) (h := h)
      as [elems' [e [Hmap Hout]]].
    + intros m h0 item Hd Hr.
      apply (store_serializeMenuItem_refines _ fuel); [exact IH | exact Hd | exact Hr].
    + lia.
    + exact Hall.
    + exists (List.length (h ++ e)), (e ++ [Store.ArrayCell elems']). split.
      * cbn. unfold Store.hbind at 1.
        unfold Store.read_array, Store.read, Store.hbind at 1. rewrite Harr. cbn.
        unfold Store.hbind. rewrite Hmap. cbn. unfold Store.alloc.
        rewrite app_assoc. reflexivity.
      * rewrite app_assoc. exists elems'. split; [apply nth_error_new|].
        eapply Forall2_repr_item_unchanged; [apply unchanged_app | exact Hout].
Qed.

Lemma Forall2_array_get {A B} (R : A -> B -> Prop) (xs : list A) (ys : list B)
      (index : Z) :
  Forall2 R xs ys ->
  match array_get xs index, array_get ys index with
  | Some x, Some y => R x y
  | None, None => True
  | _, _ => False
  end.
Proof.
  intros Hall. unfold array_get. destruct (index <? 0); [exact I|].
  generalize (Z.to_nat index) as n. induction Hall as [| x y xs ys Hxy _ IH];
    intros [| n]; cbn; [exact I | exact I | exact Hxy | apply IH].
Qed.

Lemma store_findSubmenuItem_loop_refines (indices : list Z) :
  forall h found n,
    Store.repr_result h found n ->
    exists r m,
      Store.findSubmenuItem_loop found indices h = Some (r, h)
      /\ findSubmenuItem_loop n indices = Returned m
      /\ Store.repr_result h r m.
Proof.
  induction indices as [| index rest IH]; intros h found n Hrepr.
  - exists found, n. repeat split. exact Hrepr.
  - destruct found as [l|], n as [node|]; try contradiction.
    + cbn in Hrepr.
      inversion Hrepr as [? i a Hcell | ? i a sub elems kids Hcell Harr Hkids]; subst.
      * exists None, None. cbn. unfold Store.hbind, Store.read. rewrite Hcell.
        repeat split.
      * pose proof (Forall2_array_get _ _ _ index Hkids) as Hget.
        destruct (IH h (array_get elems index) (array_get kids index))
          as [r [m [Hrun [Hpure Hres]]]].
        { unfold Store.repr_result.
          destruct (array_get elems index), (array_get kids index); exact Hget. }
        exists r, m. split; [|split; [|exact Hres]].
        -- cbn. unfold Store.hbind at 1, Store.read. rewrite Hcell.
           unfold Store.read_array, Store.hbind, Store.read. rewrite Harr. cbn.
           exact Hrun.
        -- rewrite (findSubmenuItem_loop_step _ kids); [exact Hpure | reflexivity].
    + exists None, None. repeat split.
Qed.

Lemma store_findSubmenuItem_refines items indices h l :
  Store.repr_items h l items ->
  exists r m,
    Store.findSubmenuItem l indices h
    = Some (r, h ++ [Store.ItemCell None None (Some l)])
    /\ findSubmenuItem items indices = Returned m
    /\ Store.repr_result (h ++ [Store.ItemCell None None (Some l)]) r m.
Proof.
  intros Hrepr.
  set (h' := h ++ [Store.ItemCell None None (Some l)]).
  assert (Hroot : Store.repr_result h' (Some (List.length h))
                    (Some (synthetic_root items))).
  { cbn. destruct (repr_items_unchanged h h' l items (unchanged_app _ _) Hrepr)
      as [elems [Harr Hall]].
    eapply Store.repr_node; [apply nth_error_new | exact Harr | exact Hall]. }
  destruct (store_findSubmenuItem_loop_refines indices h' _ _ Hroot)
    as [r [m [Hrun [Hpure Hres]]]].
  exists r, m. split; [|split; assumption].
  unfold Store.findSubmenuItem, Store.hbind, Store.alloc. exact Hrun.
Qed.

(** C9: neither [serializeMenuItems] nor [findSubmenuItem] mutates the
    tree it is given.  On every store that holds a menu tree, serialising
    returns, keeps every existing object as it was and leaves the same
    tree at the caller's reference; resolving a path afterwards does the
    same, and so reads the tree that was passed to the serialiser. *)
Theorem menu_tree_not_mutated (h : Store.Heap) (l : Store.loc)
        (items : list MenuItem) (indices : list Z)
        (Htree : Store.repr_items h l items) :
  exists out h1 found h2 m,
    Store.serializeMenuItems (S (depths items)) l h = Some (out, h1)
    /\ Store.unchanged h h1
    /\ Store.repr_items h1 l items
    /\ Store.repr_items h1 out (serializeMenuItems items)
    /\ Store.findSubmenuItem l indices h1 = Some (found, h2)
    /\ Store.unchanged h h2
    /\ Store.repr_items h2 l items
    /\ findSubmenuItem items indices = Returned m
    /\ Store.repr_result h2 found m.
Proof.
  destruct (store_serializeMenuItems_refines (S (depths items)) items h l)
    as [out [e [Hser Hout]]]; [lia | exact Htree |].
  assert (Hkeep1 : Store.unchanged h (h ++ e)) by apply unchanged_app.
  assert (Htree1 : Store.repr_items (h ++ e) l items)
    by (eapply repr_items_unchanged; eassumption).
  destruct (store_findSubmenuItem_refines items indices (h ++ e) l Htree1)
    as [found [m [Hfind [Hpure Hres]]]].
  exists out, (h ++ e), found, ((h ++ e) ++ [Store.ItemCell None None (Some l)]), m.
  repeat split; try assumption.
  - eapply unchanged_trans; [exact Hkeep1 | apply unchanged_app].
  - eapply repr_items_unchanged; [apply unchanged_app | exact Htree1].
Qed.

Lemma repr_example_tree : Store.repr_items example_heap example_items example_tree.
Proof.
  exists [2%nat; 3%nat]. split; [reflexivity|].
  constructor; [|constructor; [|constructor]].
  - eapply Store.repr_node with (sub := 1%nat) (elems := [0%nat]);
      [reflexivity | reflexivity |].
    constructor; [|constructor]. apply Store.repr_leaf. reflexivity.
  - apply Store.repr_leaf. reflexivity.
Qed.

Lemma menu_tree_not_mutated_witness :
  Store.repr_items example_heap example_items example_tree
  /\ exists out h1 found h2 m,
      Store.serializeMenuItems (S (depths example_tree)) example_items example_heap
      = Some (out, h1)
      /\ Store.unchanged example_heap h1
      /\ Store.repr_items h1 example_items example_tree
      /\ Store.repr_items h1 out (serializeMenuItems example_tree)
      /\ Store.findSubmenuItem example_items [0; 0] h1 = Some (found, h2)
      /\ Store.unchanged example_heap h2
      /\ Store.repr_items h2 example_items example_tree
      /\ findSubmenuItem example_tree [0; 0] = Returned m
      /\ Store.repr_result h2 found m.
Proof.
  split; [exact repr_example_tree|].
  apply (menu_tree_not_mutated example_heap example_items example_tree [0; 0]).
  exact repr_example_tree.
Defined.

(** On the example the serialiser appends five objects and the resolver
    one, and the node found is the original object of [A1]. *)
Example store_example_run :
  Store.serializeMenuItems 2 example_items example_heap
  = Some (9%nat,
          example_heap
          ++ [Store.ItemCell (Some "A1") None None;
              Store.ArrayCell [5%nat];
              Store.ItemCell (Some "A") None (Some 6%nat);
              Store.ItemCell (Some "B") None None;
              Store.ArrayCell [7%nat; 8%nat]])
  /\ Store.findSubmenuItem example_items [0; 0] example_heap
     = Some (Some 0%nat,
             example_heap ++ [Store.ItemCell None None (Some example_items)]).
Proof. split; reflexivity. Qed.


(** * Further properties *)

(** ** Resolution of paths *)

Lemma findSubmenuItem_loop_returns (indices : list Z) :
  forall found, exists r, findSubmenuItem_loop found indices = Returned r.
Proof.
  intros [n|].
  - destruct (Reaches_or_Misses indices n) as [[m Hm] | Hmiss].
    + exists (Some m). apply findSubmenuItem_loop_reaches, Hm.
    + exists None. apply findSubmenuItem_loop_misses, Hmiss.
  - exists None. apply findSubmenuItem_loop_undefined.
Qed.

Lemma findSubmenuItem_loop_never_throws_aux (items : list MenuItem)
      (indices : list Z) (e : JsError) :
  findSubmenuItem items indices = Thrown e -> False.
Proof.
  unfold findSubmenuItem.
  destruct (findSubmenuItem_loop_returns indices (Some (synthetic_root items)))
    as [r Hr].
  rewrite Hr. discriminate.
Qed.

(** X1: [findSubmenuItem] throws on no tree and no path: the test at the
    head of the loop body keeps every property read away from
    [undefined], so the function always returns, a node or [undefined]. *)
Theorem findSubmenuItem_never_throws (items : list MenuItem) (indices : list Z) :
  exists r, findSubmenuItem items indices = Returned r.
Proof.
  unfold findSubmenuItem.
  apply (findSubmenuItem_loop_returns indices (Some (synthetic_root items))).
Qed.

(** X2: the result tells the two kinds of path apart: a node comes back
    exactly when the path can be followed to it, and [undefined] exactly
    when the path cannot be followed. *)
Theorem findSubmenuItem_characterised (items : list MenuItem) (indices : list Z) :
  (forall m, findSubmenuItem items indices = Returned (Some m)
             <-> Reaches (synthetic_root items) indices m)
  /\ (findSubmenuItem items indices = Returned None
      <-> Misses (synthetic_root items) indices).
Proof.
  unfold findSubmenuItem. split; [intros m|]; split.
  - intros Hrun.
    destruct (Reaches_or_Misses indices (synthetic_root items)) as [[m' Hm'] | Hmiss].
    + rewrite (findSubmenuItem_loop_reaches _ _ _ Hm') in Hrun.
      injection Hrun as ->. exact Hm'.
    + rewrite (findSubmenuItem_loop_misses _ _ Hmiss) in Hrun. discriminate.
  - apply findSubmenuItem_loop_reaches.
  - intros Hrun.
    destruct (Reaches_or_Misses indices (synthetic_root items)) as [[m' Hm'] | Hmiss].
    + rewrite (findSubmenuItem_loop_reaches _ _ _ Hm') in Hrun. discriminate.
    + exact Hmiss.
  - apply findSubmenuItem_loop_misses.
Qed.

Lemma findSubmenuItem_loop_app (first rest : list Z) :
  forall found,
    findSubmenuItem_loop found (first ++ rest)
    = (mid <- findSubmenuItem_loop found first ;; findSubmenuItem_loop mid rest)%js.
Proof.
  induction first as [| index first IH]; intros found.
  - reflexivity.
  - destruct found as [n|].
    + destruct (submenu n) as [kids|] eqn:Hsub.
      * cbn [app]. rewrite !(findSubmenuItem_loop_step _ _ _ _ Hsub). apply IH.
      * cbn [app]. rewrite !(findSubmenuItem_loop_no_submenu _ _ _ Hsub).
        cbn. symmetry. apply findSubmenuItem_loop_undefined.
    + cbn [app]. rewrite !findSubmenuItem_loop_undefined.
      cbn. symmetry. apply findSubmenuItem_loop_undefined.
Qed.

(** X3: a path is resolved piece by piece.  Where a first part of the path
    resolves to [undefined], so does the whole path; where it resolves to
    a node, going on with at least one more index is resolving the rest in
    the submenu of that node, and gives [undefined] if the node has no
    submenu. *)
Theorem findSubmenuItem_path_composes (items : list MenuItem)
        (first : list Z) (index : Z) (rest : list Z) :
  (findSubmenuItem items first = Returned None ->
   findSubmenuItem items (first ++ index :: rest) = Returned None)
  /\ (forall n kids,
         findSubmenuItem items first = Returned (Some n) ->
         submenu n = Some kids ->
         findSubmenuItem items (first ++ index :: rest)
         = findSubmenuItem kids (index :: rest))
  /\ (forall n,
         findSubmenuItem items first = Returned (Some n) ->
         submenu n = None ->
         findSubmenuItem items (first ++ index :: rest) = Returned None).
Proof.
  unfold findSubmenuItem. repeat split.
  - intros Hfirst. rewrite findSubmenuItem_loop_app, Hfirst. reflexivity.
  - intros n kids Hfirst Hsub. rewrite findSubmenuItem_loop_app, Hfirst.
    cbn [bindC]. rewrite (findSubmenuItem_loop_step _ _ _ _ Hsub).
    rewrite (findSubmenuItem_loop_step (synthetic_root kids) kids); reflexivity.
  - intros n Hfirst Hsub. rewrite findSubmenuItem_loop_app, Hfirst.
    cbn [bindC]. apply findSubmenuItem_loop_no_submenu, Hsub.
Qed.

Lemma findSubmenuItem_path_composes_witness :
  findSubmenuItem example_tree [0] = Returned (Some example_A)
  /\ submenu example_A = Some [example_A1]
  /\ findSubmenuItem example_tree ([0] ++ 0 :: [])
     = findSubmenuItem [example_A1] (0 :: []).
Proof.
  split; [reflexivity|]. split; [reflexivity|].
  apply (proj1 (proj2 (findSubmenuItem_path_composes example_tree [0] 0 []))
           example_A [example_A1]); reflexivity.
Defined.

Lemma Reaches_depth n indices m :
  Reaches n indices m -> (List.length indices + depth m <= depth n)%nat.
Proof.
  induction 1 as [n | n kids index child rest m Hsub _ Hnth _ IH]; cbn [List.length].
  - lia.
  - destruct n as [i a s]. cbn in Hsub. subst s. rewrite depth_node.
    assert (Hchild : (depth child <= depths kids)%nat).
    { clear - Hnth. revert kids Hnth. generalize (Z.to_nat index) as k.
      induction k as [| k IHk]; intros [| x xs] Hnth; cbn in Hnth; try discriminate.
      - injection Hnth as ->. rewrite depths_cons. lia.
      - rewrite depths_cons. specialize (IHk _ Hnth). lia. }
    lia.
Qed.

(** X4: a path with more indices than the tree has levels resolves to
    [undefined], whatever the indices are. *)
Theorem findSubmenuItem_path_too_long (items : list MenuItem) (indices : list Z)
        (Hlong : (S (depths items) < List.length indices)%nat) :
  findSubmenuItem items indices = Returned None.
Proof.
  unfold findSubmenuItem.
  destruct (Reaches_or_Misses indices (synthetic_root items)) as [[m Hm] | Hmiss].
  - apply Reaches_depth in Hm. unfold synthetic_root in Hm.
    rewrite depth_node in Hm. lia.
  - apply findSubmenuItem_loop_misses, Hmiss.
Qed.

Lemma findSubmenuItem_path_too_long_witness :
  (S (depths example_tree) < List.length [0; 0; 0])%nat
  /\ findSubmenuItem example_tree [0; 0; 0] = Returned None.
Proof.
  split; [cbn; lia|].
  apply (findSubmenuItem_path_too_long example_tree [0; 0; 0]). cbn. lia.
Defined.

(** ** Serialising and resolving together *)

Lemma array_get_map {A B} (f : A -> B) (xs : list A) (index : Z) :
  array_get (map f xs) index = option_map f (array_get xs index).
Proof.
  unfold array_get. destruct (index <? 0); [reflexivity|].
  apply nth_error_map.
Qed.

Lemma findSubmenuItem_loop_serialized (indices : list Z) :
  forall found r,
    findSubmenuItem_loop found indices = Returned r ->
    findSubmenuItem_loop (option_map serializeMenuItem found) indices
    = Returned (option_map serializeMenuItem r).
Proof.
  induction indices as [| index rest IH]; intros found r Hrun.
  - cbn in Hrun. injection Hrun as <-. reflexivity.
  - destruct found as [[i a [kids|]]|].
    + rewrite (findSubmenuItem_loop_step _ kids) in Hrun by reflexivity.
      cbn [option_map].
      rewrite (findSubmenuItem_loop_step _ (map serializeMenuItem kids)) by reflexivity.
      rewrite array_get_map. apply IH, Hrun.
    + rewrite findSubmenuItem_loop_no_submenu in Hrun by reflexivity.
      injection Hrun as <-. reflexivity.
    + rewrite findSubmenuItem_loop_undefined in Hrun. injection Hrun as <-.
      apply findSubmenuItem_loop_undefined.
Qed.

(** X5: a path means the same in the serialised tree as in the original:
    resolved in the serialised tree it gives the serialised form of the
    node it gives in the original, and is [undefined] in one exactly when
    in the other.  This is what lets the path chosen by the main process
    on the serialised tree be resolved against the original. *)
Theorem findSubmenuItem_serialized (items : list MenuItem) (indices : list Z) :
  exists r,
    findSubmenuItem items indices = Returned r
    /\ findSubmenuItem (serializeMenuItems items) indices
       = Returned (option_map serializeMenuItem r).
Proof.
  unfold findSubmenuItem.
  destruct (findSubmenuItem_loop_returns indices (Some (synthetic_root items)))
    as [r Hr].
  exists r. split; [exact Hr|].
  apply (findSubmenuItem_loop_serialized indices _ _ Hr).
Qed.

Lemma serializeMenuItem_fixes_action_free (m : MenuItem) :
  ActionFree m -> serializeMenuItem m = m.
Proof.
  induction m as [i a | i a kids IH] using MenuItem_tree_ind;
    intros Hfree; inversion Hfree as [| ? ? Hkids]; subst; cbn.
  - reflexivity.
  - do 2 f_equal. clear Hfree.
    induction IH as [| k ks Hk _ IHks]; cbn; [reflexivity|].
    inversion Hkids; subst. rewrite Hk, IHks by assumption. reflexivity.
Qed.

(** X6: the trees [serializeMenuItems] returns unchanged are exactly the
    trees that carry no action at any depth. *)
Theorem serializeMenuItems_fixed_points (items : list MenuItem) :
  serializeMenuItems items = items <-> Forall ActionFree items.
Proof.
  unfold serializeMenuItems. split.
  - intros Hfix. rewrite <- Hfix. apply Forall_forall. intros m Hin.
    apply in_map_iff in Hin. destruct Hin as [m0 [<- _]].
    apply serializeMenuItem_action_free.
  - induction 1 as [| m ms Hm _ IH]; cbn; [reflexivity|].
    rewrite (serializeMenuItem_fixes_action_free _ Hm), IH. reflexivity.
Qed.

(** ** More on the contextual-menu round trip *)

Lemma list_neq_app_one {A} (xs : list A) (x : A) : xs <> xs ++ [x].
Proof.
  intros Heq. apply (f_equal (@List.length A)) in Heq.
  rewrite length_app in Heq. cbn in Heq. lia.
Qed.

(** X7: whatever the main process answers and whatever the tree is,
    [showContextualMenu] makes exactly one transport call, the
    show-contextual-menu request; the tree in it carries no action at any
    depth; and at most one action is called. *)
Theorem showContextualMenu_one_request (env : Environment) (items : list MenuItem)
        (mergeWithSpellcheckSuggestions : option bool) (before : list Event) :
  let after := snd (showContextualMenu env items mergeWithSpellcheckSuggestions before) in
  transport_calls after
  = transport_calls before
    ++ [IpcInvoke show_contextual_menu
          (serializeMenuItems items, merge_flag mergeWithSpellcheckSuggestions)]
  /\ Forall ActionFree (serializeMenuItems items)
  /\ (actions_called after = actions_called before
      \/ exists f, actions_called after = actions_called before ++ [f]).
Proof.
  cbv zeta. rewrite showContextualMenu_unfold.
  split; [|split].
  - fold (menu_request items mergeWithSpellcheckSuggestions).
    destruct (menu_reply env before items mergeWithSpellcheckSuggestions)
      as [[indices|] | e |]; cbn [snd];
      try (rewrite transport_calls_app; reflexivity).
    destruct (findSubmenuItem items indices) as [[m|] | e]; cbn [snd];
      try (rewrite transport_calls_app; reflexivity).
    destruct (action m) as [f|]; cbn [snd];
      try (rewrite transport_calls_app; reflexivity).
    destruct (run_closure env f); cbn [snd];
      rewrite !transport_calls_app; cbn; rewrite app_nil_r; reflexivity.
  - apply Forall_forall. intros m Hin. unfold serializeMenuItems in Hin.
    apply in_map_iff in Hin. destruct Hin as [m0 [<- _]].
    apply serializeMenuItem_action_free.
  - destruct (menu_reply env before items mergeWithSpellcheckSuggestions)
      as [[indices|] | e |]; cbn [snd];
      try (left; rewrite actions_called_app; cbn; apply app_nil_r).
    destruct (findSubmenuItem items indices) as [[m|] | e]; cbn [snd];
      try (left; rewrite actions_called_app; cbn; apply app_nil_r).
    destruct (action m) as [f|]; cbn [snd];
      try (left; rewrite actions_called_app; cbn; apply app_nil_r).
    right. exists f.
    destruct (run_closure env f); cbn [snd];
      rewrite !actions_called_app; cbn; rewrite app_nil_r; reflexivity.
Qed.

(** X8: an action is called exactly when the main process answers with a
    path that resolves to a node carrying that action; it is then the only
    action called. *)
Theorem showContextualMenu_calls_exactly (env : Environment) (items : list MenuItem)
        (mergeWithSpellcheckSuggestions : option bool) (before : list Event)
        (f : Callable) :
  actions_called (snd (showContextualMenu env items mergeWithSpellcheckSuggestions before))
  = actions_called before ++ [f]
  <-> exists indices m,
      menu_reply env before items mergeWithSpellcheckSuggestions
      = Fulfilled (Some indices)
      /\ findSubmenuItem items indices = Returned (Some m)
      /\ action m = Some f.
Proof.
  rewrite showContextualMenu_unfold. split.
  - destruct (menu_reply env before items mergeWithSpellcheckSuggestions)
      as [[indices|] | e |]; cbn [snd];
      try (rewrite actions_called_app; cbn; rewrite app_nil_r;
           intros Habs; apply list_neq_app_one in Habs; contradiction).
    destruct (findSubmenuItem items indices) as [[m|] | e] eqn:Hfind; cbn [snd];
      try (rewrite actions_called_app; cbn; rewrite app_nil_r;
           intros Habs; apply list_neq_app_one in Habs; contradiction).
    destruct (action m) as [g|] eqn:Hact; cbn [snd];
      try (rewrite actions_called_app; cbn; rewrite app_nil_r;
           intros Habs; apply list_neq_app_one in Habs; contradiction).
    intros Hcalls. exists indices, m.
    split; [reflexivity|]. split; [exact Hfind|]. rewrite Hact.
    assert (Hg : actions_called before ++ [g] = actions_called before ++ [f]).
    { rewrite <- Hcalls.
      destruct (run_closure env g); cbn [snd];
        rewrite !actions_called_app; cbn; rewrite app_nil_r; reflexivity. }
    apply app_inv_head in Hg. congruence.
  - intros [indices [m [-> [-> ->]]]].
    destruct (run_closure env f); cbn [snd];
      rewrite !actions_called_app; cbn; rewrite app_nil_r; reflexivity.
Qed.

(** X9: how the function ends.  It stays suspended exactly when the
    transport never answers; it fails exactly when the transport rejects,
    with the transport's reason, or when the action it called threw, with
    what the action threw; the resolution of the path never makes it
    fail. *)
Theorem showContextualMenu_outcome (env : Environment) (items : list MenuItem)
        (mergeWithSpellcheckSuggestions : option bool) (before : list Event) :
  let reply := menu_reply env before items mergeWithSpellcheckSuggestions in
  let outcome := fst (showContextualMenu env items mergeWithSpellcheckSuggestions before) in
  (outcome = Suspended <-> reply = Pending)
  /\ (forall e,
         outcome = Failed e
         <-> reply = Rejected e
             \/ exists indices m f,
               reply = Fulfilled (Some indices)
               /\ findSubmenuItem items indices = Returned (Some m)
               /\ action m = Some f
               /\ run_closure env f = Thrown e).
Proof.
  cbv zeta. rewrite showContextualMenu_unfold.
  destruct (menu_reply env before items mergeWithSpellcheckSuggestions)
    as [[indices|] | e0 |] eqn:Hreply.
  - destruct (findSubmenuItem items indices) as [[m|] | e1] eqn:Hfind.
    + destruct (action m) as [f|] eqn:Hact.
      * destruct (run_closure env f) as [[] | e2] eqn:Hrun; cbn [fst].
        -- split; [split; discriminate|]. intros e. split; [discriminate|].
           intros [Habs | [indices' [m' [f' [Hi [Hm [Hf Hthrow]]]]]]]; [discriminate|].
           injection Hi as <-. rewrite Hfind in Hm. injection Hm as <-.
           rewrite Hact in Hf. injection Hf as <-. congruence.
        -- split; [split; discriminate|]. intros e. split.
           ++ intros Heq. injection Heq as <-. right.
              exists indices, m, f. repeat split; assumption.
           ++ intros [Habs | [indices' [m' [f' [Hi [Hm [Hf Hthrow]]]]]]]; [discriminate|].
              injection Hi as <-. rewrite Hfind in Hm. injection Hm as <-.
              rewrite Hact in Hf. injection Hf as <-. congruence.
      * cbn [fst]. split; [split; discriminate|]. intros e. split; [discriminate|].
        intros [Habs | [indices' [m' [f' [Hi [Hm [Hf _]]]]]]]; [discriminate|].
        injection Hi as <-. rewrite Hfind in Hm. injection Hm as <-. congruence.
    + cbn [fst]. split; [split; discriminate|]. intros e. split; [discriminate|].
      intros [Habs | [indices' [m' [f' [Hi [Hm _]]]]]]; [discriminate|].
      injection Hi as <-. congruence.
    + exfalso. exact (findSubmenuItem_loop_never_throws_aux items indices e1 Hfind).
  - cbn [fst]. split; [split; discriminate|]. intros e. split; [discriminate|].
    intros [Habs | [indices' [m' [f' [Hi _]]]]]; discriminate.
  - cbn [fst]. split; [split; discriminate|]. intros e. split.
    + intros Heq. injection Heq as <-. left. reflexivity.
    + intros [Heq | [indices' [m' [f' [Hi _]]]]]; [congruence | discriminate].
  - cbn [fst]. split; [split; reflexivity|]. intros e. split; [discriminate|].
    intros [Habs | [indices' [m' [f' [Hi _]]]]]; discriminate.
Qed.

(** ** More on normalising errors *)

Lemma or_undefined_not_empty (x : option string) : or_undefined x <> Some "".
Proof.
  destruct x as [s|]; cbn; [|discriminate].
  destruct (String.eqb s "") eqn:Heq; [discriminate|].
  intros Habs. injection Habs as ->. discriminate.
Qed.

(** X10: fields that are non-empty strings pass through unchanged, each on
    its own: such a message, such a name and such a stack are the message,
    the name and the stack of the record. *)
Theorem getIpcFriendlyError_keeps_truthy (error : JsError) (s : string)
        (Hs : s <> "") :
  (error_message error = Some s -> message (getIpcFriendlyError error) = s)
  /\ (error_name error = Some s -> name (getIpcFriendlyError error) = s)
  /\ (error_stack error = Some s -> stack (getIpcFriendlyError error) = Some s).
Proof.
  repeat split; intros Hfield; cbn; rewrite Hfield.
  - apply or_string_truthy, Hs.
  - apply or_string_truthy, Hs.
  - cbn. destruct (String.eqb s "") eqn:Heq; [|reflexivity].
    apply String.eqb_eq in Heq. contradiction.
Qed.

Lemma getIpcFriendlyError_keeps_truthy_witness :
  let error := mkJsError (Some "boom") (Some "boom") (Some "boom") in
  "boom" <> ""
  /\ message (getIpcFriendlyError error) = "boom"
  /\ name (getIpcFriendlyError error) = "boom"
  /\ stack (getIpcFriendlyError error) = Some "boom".
Proof.
  cbv zeta. split; [discriminate|].
  assert (Hs : "boom" <> "") by discriminate.
  pose proof (getIpcFriendlyError_keeps_truthy
                (mkJsError (Some "boom") (Some "boom") (Some "boom")) "boom" Hs)
    as [Hm [Hn Hst]].
  split; [apply Hm; reflexivity|]. split; [apply Hn; reflexivity | apply Hst; reflexivity].
Defined.

(** X11: the stack of the record is never the empty string: it is a
    non-empty string exactly when the error's stack is that string, and
    absent otherwise. *)
Theorem getIpcFriendlyError_stack_never_empty (error : JsError) :
  stack (getIpcFriendlyError error) <> Some ""
  /\ (forall s, stack (getIpcFriendlyError error) = Some s
                <-> error_stack error = Some s /\ s <> "")
  /\ (stack (getIpcFriendlyError error) = None
      <-> error_stack error = None \/ error_stack error = Some "").
Proof.
  cbn. split; [apply or_undefined_not_empty|].
  destruct (error_stack error) as [t|]; cbn.
  - destruct (String.eqb t "") eqn:Heq.
    + apply String.eqb_eq in Heq. subst t. split.
      * intros s. split; [discriminate|]. intros [Hs Hne]. injection Hs as <-.
        contradiction.
      * split; [right; reflexivity | reflexivity].
    + apply String.eqb_neq in Heq. split.
      * intros s. split.
        -- intros Hs. injection Hs as <-. split; [reflexivity | exact Heq].
        -- intros [Hs _]. exact Hs.
      * split; [discriminate|]. intros [Habs | Habs]; [discriminate|].
        injection Habs as ->. contradiction.
  - split.
    + intros s. split; [discriminate | intros [Habs _]; discriminate].
    + split; [left; reflexivity | reflexivity].
Qed.





(** ** More on the tree as shared objects *)

(** X13: on any store whatever, also one that holds no well-formed tree,
    and for any bound on the recursion: where [serializeMenuItems] or
    [findSubmenuItem] returns, the store it leaves is the store it found
    with new objects appended, so every object that existed is unchanged;
    [findSubmenuItem] appends just its root. *)
Theorem store_functions_only_allocate (h : Store.Heap) (items : Store.loc) :
  (forall fuel out h',
      Store.serializeMenuItems fuel items h = Some (out, h') ->
      (exists extra, h' = h ++ extra) /\ Store.unchanged h h')
  /\ (forall indices found h',
         Store.findSubmenuItem items indices h = Some (found, h') ->
         h' = h ++ [Store.ItemCell None None (Some items)] /\ Store.unchanged h h').
Proof.
  split.
  - intros fuel out h' Hrun.
    destruct (store_serializeMenuItems_extends fuel _ _ _ _ Hrun) as [extra ->].
    split; [exists extra; reflexivity | apply unchanged_app].
  - intros indices found h' Hrun.
    apply store_findSubmenuItem_extends in Hrun. subst h'.
    split; [reflexivity | apply unchanged_app].
Qed.

Lemma store_serializeMenuItems_example_run :
  Store.serializeMenuItems 2 example_items example_heap
  = Some (9%nat,
          example_heap
          ++ [Store.ItemCell (Some "A1") None None;
              Store.ArrayCell [5%nat];
              Store.ItemCell (Some "A") None (Some 6%nat);
              Store.ItemCell (Some "B") None None;
              Store.ArrayCell [7%nat; 8%nat]]).
Proof. reflexivity. Qed.

Lemma store_functions_only_allocate_witness :
  exists out h',
    Store.serializeMenuItems 2 example_items example_heap = Some (out, h')
    /\ Store.unchanged example_heap h'.
Proof.
  eexists. eexists. split; [exact store_serializeMenuItems_example_run|].
  apply (proj1 (store_functions_only_allocate example_heap example_items)
           2%nat _ _ store_serializeMenuItems_example_run).
Defined.







Lemma store_findSubmenuItem_loop_stable (indices : list Z) :
  forall found h r h',
    Store.unchanged h h' ->
    Store.findSubmenuItem_loop found indices h = Some (r, h) ->
    Store.findSubmenuItem_loop found indices h' = Some (r, h').
Proof.
  induction indices as [| index rest IH]; intros found h r h' Hkeep Hrun;
    cbn in Hrun |- *.
  - injection Hrun as <-. reflexivity.
  - destruct found as [l|]; [|injection Hrun as <-; reflexivity].
    unfold Store.hbind at 1, Store.read in Hrun.
    unfold Store.hbind at 1, Store.read.
    destruct (nth_error h l) as [c|] eqn:Hcell; [|discriminate].
    rewrite (Hkeep _ _ Hcell).
    destruct c as [i a [sub|] | ?]; try discriminate.
    + unfold Store.read_array, Store.hbind, Store.read in Hrun |- *.
      destruct (nth_error h sub) as [c|] eqn:Harr; [|discriminate].
      rewrite (Hkeep _ _ Harr).
      destruct c as [| elems]; try discriminate.
      cbn in Hrun |- *. eapply IH; eassumption.
    + injection Hrun as <-. reflexivity.
Qed.

(** X15: for a path of at least one index, what [findSubmenuItem] returns
    is a reference to an object of the caller's tree, the one at that
    position, as it was in the store before the call; never a copy and
    never the root it built. *)
Theorem store_findSubmenuItem_returns_original (h : Store.Heap) (l : Store.loc)
        (items : list MenuItem) (index : Z) (rest : list Z)
        (Htree : Store.repr_items h l items) :
  exists found m,
    Store.findSubmenuItem l (index :: rest) h
    = Some (found, h ++ [Store.ItemCell None None (Some l)])
    /\ findSubmenuItem items (index :: rest) = Returned m
    /\ Store.repr_result h found m
    /\ found <> Some (List.length h).
Proof.
  destruct Htree as [elems [Harr Hall]].
  pose proof (Forall2_array_get _ _ _ index Hall) as Hget.
  destruct (store_findSubmenuItem_loop_refines rest h
              (array_get elems index) (array_get items index))
    as [found [m [Hrun [Hpure Hres]]]].
  { unfold Store.repr_result.
    destruct (array_get elems index), (array_get items index); exact Hget. }
  exists found, m. split; [|split; [|split]].
  - unfold Store.findSubmenuItem, Store.hbind at 1, Store.alloc.
    cbn [Store.findSubmenuItem_loop].
    unfold Store.hbind at 1, Store.read. rewrite nth_error_new.
    unfold Store.read_array, Store.hbind, Store.read.
    rewrite (unchanged_app h _ _ _ Harr). cbn.
    apply (store_findSubmenuItem_loop_stable rest _ h); [apply unchanged_app | exact Hrun].
  - unfold findSubmenuItem.
    rewrite (findSubmenuItem_loop_step _ items) by reflexivity. exact Hpure.
  - exact Hres.
  - intros ->. destruct m as [n|]; [|contradiction].
    cbn in Hres.
    assert (Hnone : nth_error h (List.length h) = None)
      by (apply nth_error_None; apply Nat.le_refl).
    inversion Hres; congruence.
Qed.

Lemma store_findSubmenuItem_returns_original_witness :
  Store.repr_items example_heap example_items example_tree
  /\ exists found m,
      Store.findSubmenuItem example_items (0 :: [0]) example_heap
      = Some (found, example_heap ++ [Store.ItemCell None None (Some example_items)])
      /\ findSubmenuItem example_tree (0 :: [0]) = Returned m
      /\ Store.repr_result example_heap found m
      /\ found <> Some (List.length example_heap).
Proof.
  split; [exact repr_example_tree|].
  apply (store_findSubmenuItem_returns_original example_heap example_items
           example_tree 0 [0] repr_example_tree).
Defined.
